(** * Finite fields, polynomials and IDPF utilities of the VDAF reference code

    A shallow embedding of [poc/field.py] and [poc/idpf.py].

    - Python integers are [Z]; byte strings are [list byte].
    - A raised exception is [None] in the [option] monad.
    - The Sage object [GF(MODULUS)] is the Standard Library's [Zmod MODULUS]:
      integers kept in canonical reduced form, with [Zmod.inv] computed by the
      extended Euclidean algorithm and [Zmod.pow] by square-and-multiply.

    The first part of the file holds the definitions, the second part the
    properties proved about them. *)

From Stdlib Require Import ZArith List Bool Lia Znumtheory.
From Stdlib Require Import Strings.Byte.
From Stdlib Require Import Zmod.Zmod Zmod.Zstar.
Import ListNotations.
#[local] Open Scope Z_scope.

(* ================================================================= *)
(** ** Python building blocks *)

Module Py.

(** Exceptions: [bind] propagates the first one raised. *)
Definition bind {A B : Type} (m : option A) (k : A -> option B) : option B :=
  match m with
  | Some a => k a
  | None => None
  end.

(** [for x in xs: body] over a loop state, stopping at the first exception. *)
Definition for_each {S A : Type} (xs : list A) (body : S -> A -> option S)
  (s0 : S) : option S :=
  fold_left (fun acc x => bind acc (fun s => body s x)) xs (Some s0).

(** [range(0, stop, step)] for a positive [step]. *)
Definition range_step (stop step : nat) : list nat :=
  map (fun k => k * step)%nat (seq 0 ((stop + step - 1) / step)).

(** [l[i:j]]: slicing clamps to the length of [l]. *)
Definition slice {A : Type} (l : list A) (i j : nat) : list A :=
  firstn (j - i) (skipn i l).

(** [enumerate(l)] *)
Definition enumerate {A : Type} (l : list A) : list (nat * A) :=
  combine (seq 0 (length l)) l.

(** [y >> n]: a negative shift count raises [ValueError]. *)
Definition rshift (y n : Z) : option Z :=
  if n <? 0 then None else Some (Z.shiftr y n).

Definition int_of_byte (b : byte) : Z := Z.of_N (Byte.to_N b).

(** One item of [bytes(iterable)]: [ValueError] outside [range(256)]. *)
Definition byte_of_int (z : Z) : option byte :=
  if (0 <=? z) && (z <? 256) then Byte.of_N (Z.to_N z) else None.

Fixpoint bytes (xs : list Z) : option (list byte) :=
  match xs with
  | [] => Some []
  | x :: rest =>
      bind (byte_of_int x) (fun b =>
      bind (bytes rest) (fun bs => Some (b :: bs)))
  end.

End Py.

Notation "x <- m ;; k" := (Py.bind m (fun x => k))
  (at level 61, m at next level, right associativity).

(* ================================================================= *)
(** ** [common]: little-endian integers *)

Module Common.

(** Modelled from the spec: [to_le_bytes] of [common.py], which is not among
    the sources.  The spec (sections 4.1 and 6, glossary "canonical encoding")
    has it produce the fixed-width little-endian byte representation of a
    value: byte [i] of the result is [(val / 256^i) mod 256]. *)
Fixpoint to_le_bytes (val : Z) (length : nat) : list byte :=
  match length with
  | O => []
  | S n =>
      match Byte.of_N (Z.to_N (val mod 256)) with
      | Some b => b :: to_le_bytes (val / 256) n
      | None => x00 :: to_le_bytes (val / 256) n
      end
  end.

(** Modelled from the spec: [from_le_bytes] of [common.py], the little-endian
    value of a byte string, [sum of encoded[i] * 256^i]. *)
Fixpoint from_le_bytes (encoded : list byte) : Z :=
  match encoded with
  | [] => 0
  | b :: rest => Py.int_of_byte b + 256 * from_le_bytes rest
  end.

End Common.

(* ================================================================= *)
(** ** [field.py]: the field classes *)

Module Field.

(** The concrete subclasses of [Field]. *)
Inductive FieldClass : Set :=
  | Field2 | Field64 | Field96 | Field128 | Field255.

Definition MODULUS (cls : FieldClass) : Z :=
  match cls with
  | Field2 => 2
  | Field64 => 2^32 * 4294967295 + 1
  | Field96 => 2^64 * 4294966555 + 1
  | Field128 => 2^66 * 4611686018427387897 + 1
  | Field255 => 2^255 - 19
  end.

Definition ENCODED_SIZE (cls : FieldClass) : nat :=
  match cls with
  | Field2 => 1
  | Field64 => 8
  | Field96 => 12
  | Field128 => 16
  | Field255 => 32
  end%nat.

(** The Sage finite field object [cls.gf = GF(cls.MODULUS)]. *)
Definition gf (cls : FieldClass) : Type := Zmod (MODULUS cls).

(** An instance of class [cls]: its attribute [val], an element of [cls.gf]. *)
Definition Field (cls : FieldClass) : Type := gf cls.

(** [cls(val)] on a Python integer: [assert int(val) < MODULUS], then
    [self.val = self.gf(val)], which reduces [val] modulo [MODULUS]. *)
Definition new (cls : FieldClass) (val : Z) : option (Field cls) :=
  if val <? MODULUS cls then Some (Zmod.of_Z (MODULUS cls) val) else None.

(** [cls(val)] on an element of [cls.gf]: [int(val)] is canonical, the
    assertion of [__init__] holds and the element is stored as it is.  This is
    the constructor call that closes every arithmetic method below. *)
Definition of_gf {cls : FieldClass} (val : gf cls) : Field cls := val.

Definition as_unsigned {cls : FieldClass} (self : Field cls) : Z :=
  Zmod.to_Z self.

Definition zeros (cls : FieldClass) (length : nat) : list (Field cls) :=
  map (fun _ => of_gf Zmod.zero) (seq 0 length).

Definition add {cls : FieldClass} (self other : Field cls) : Field cls :=
  of_gf (Zmod.add self other).

Definition neg {cls : FieldClass} (self : Field cls) : Field cls :=
  of_gf (Zmod.opp self).

Definition mul {cls : FieldClass} (self other : Field cls) : Field cls :=
  of_gf (Zmod.mul self other).

(** [self.val**-1]: Sage raises [ZeroDivisionError] on the zero element. *)
Definition inv {cls : FieldClass} (self : Field cls) : option (Field cls) :=
  if Zmod.eqb self Zmod.zero then None else Some (of_gf (Zmod.inv self)).

Definition eq {cls : FieldClass} (self other : Field cls) : bool :=
  Zmod.eqb self other.

Definition sub {cls : FieldClass} (self other : Field cls) : Field cls :=
  add self (neg other).

Definition div {cls : FieldClass} (self other : Field cls) : option (Field cls) :=
  i <- inv other ;; Some (mul self i).

(** [self.val ** n]: a negative power of zero raises [ZeroDivisionError]. *)
Definition pow {cls : FieldClass} (self : Field cls) (n : Z) : option (Field cls) :=
  if (n <? 0) && Zmod.eqb self Zmod.zero then None
  else Some (of_gf (Zmod.pow self n)).

Definition encode_vec (cls : FieldClass) (vec : list (Field cls)) : list byte :=
  fold_left
    (fun encoded x => encoded ++ Common.to_le_bytes (as_unsigned x) (ENCODED_SIZE cls))
    vec [].

Definition decode_vec (cls : FieldClass) (encoded : list byte)
  : option (list (Field cls)) :=
  let L := ENCODED_SIZE cls in
  if negb (length encoded mod L =? 0)%nat then None
  else
    Py.for_each (Py.range_step (length encoded) L)
      (fun vec i =>
         let encoded_x := Py.slice encoded i (i + L) in
         let x := Common.from_le_bytes encoded_x in
         if x >=? MODULUS cls then None
         else e <- new cls x ;; Some (vec ++ [e]))
      [].

Definition encode_into_bit_vector (cls : FieldClass) (val bits : Z)
  : option (list (Field cls)) :=
  if val >=? 2 ^ bits then None
  else
    Py.for_each (map Z.of_nat (seq 0 (Z.to_nat bits)))
      (fun encoded l =>
         e <- new cls (Z.land (Z.shiftr val l) 1) ;; Some (encoded ++ [e]))
      [].

Definition decode_from_bit_vector (cls : FieldClass) (vec : list (Field cls))
  : option (Field cls) :=
  let bits := Z.of_nat (length vec) in
  if Z.shiftr (MODULUS cls) bits =? 0 then None
  else
    decoded <- new cls 0 ;;
    Py.for_each (Py.enumerate vec)
      (fun decoded '(l, bit) =>
         c <- new cls (Z.shiftl 1 (Z.of_nat l)) ;; Some (add decoded (mul c bit)))
      decoded.

(** [Field2.conditional_select] *)
Definition conditional_select (self : Field Field2) (inp : list byte)
  : option (list byte) :=
  let v := as_unsigned self in
  let m := fold_left (fun m i => Z.lor m (Z.shiftl v (Z.of_nat i))) (seq 0 8) 0 in
  Py.bytes (map (fun x => Z.land m (Py.int_of_byte x)) inp).

(** [FftField.GEN_ORDER]: an attribute of the three FFT-friendly classes only. *)
Definition GEN_ORDER (cls : FieldClass) : option Z :=
  match cls with
  | Field64 => Some (2^32)
  | Field96 => Some (2^64)
  | Field128 => Some (2^66)
  | Field2 | Field255 => None
  end.

(** [FftField.gen]: the classes that are not FFT-friendly have no such
    method. *)
Definition gen (cls : FieldClass) : option (Field cls) :=
  match cls return option (Field cls) with
  | Field64 => b <- new Field64 7 ;; pow b 4294967295
  | Field96 => b <- new Field96 3 ;; pow b 4294966555
  | Field128 => b <- new Field128 7 ;; pow b 4611686018427387897
  | Field2 => None
  | Field255 => None
  end.

End Field.

(* ================================================================= *)
(** ** Sage polynomials *)

Module Sage.
Import Field.

Section PolynomialRing.
Context {cls : FieldClass}.

(** An element of [PolynomialRing(field.gf, 'x')], as the list of all its
    coefficients by increasing degree, the last one non-zero. *)
Fixpoint normalize (p : list (gf cls)) : list (gf cls) :=
  match p with
  | [] => []
  | c :: q =>
      match normalize q with
      | [] => if Zmod.eqb c Zmod.zero then [] else [c]
      | q' => c :: q'
      end
  end.

Fixpoint padd (p q : list (gf cls)) : list (gf cls) :=
  match p, q with
  | [], _ => q
  | _, [] => p
  | a :: p', b :: q' => Zmod.add a b :: padd p' q'
  end.

Definition pscale (c : gf cls) (p : list (gf cls)) : list (gf cls) := map (Zmod.mul c) p.

(** [(x - r) * p] *)
Definition pmul_linear (r : gf cls) (p : list (gf cls)) : list (gf cls) :=
  padd (Zmod.zero :: p) (pscale (Zmod.opp r) p).

(** The points other than the [i]-th. *)
Definition others (xs : list (gf cls)) (i : nat) : list (gf cls) :=
  firstn i xs ++ skipn (S i) xs.

(** Numerator of the [i]-th Lagrange basis polynomial: the product of the
    [x - xj] for [j <> i]. *)
Definition basis_num (xs : list (gf cls)) (i : nat) : list (gf cls) :=
  fold_right pmul_linear [Zmod.one] (others xs i).

(** Its denominator: the product of the [xi - xj] for [j <> i]. *)
Definition basis_den (xs : list (gf cls)) (xi : gf cls) (i : nat) : gf cls :=
  fold_right (fun xj acc => Zmod.mul (Zmod.sub xi xj) acc) Zmod.one (others xs i).

(** [R.lagrange_polynomial(points)]: the polynomial of least degree through
    the points, the sum of the [yi * num_i / den_i]; two points with the same
    abscissa make a denominator zero, and Sage raises [ZeroDivisionError]. *)
Definition lagrange_polynomial (points : list (gf cls * gf cls)) : option (list (gf cls)) :=
  let xs := map fst points in
  option_map normalize
    (Py.for_each (Py.enumerate points)
       (fun acc '(i, (xi, yi)) =>
          let d := basis_den xs xi i in
          if Zmod.eqb d Zmod.zero then None
          else Some (padd acc (pscale (Zmod.mul yi (Zmod.inv d)) (basis_num xs i))))
       []).

(** [p.coefficients()]: the keyword [sparse] defaults to [True], and Sage
    then returns only the non-zero coefficients, by increasing degree
    ([sparse=False] would return all of them, as [p.list()] does). *)
Definition coefficients (p : list (gf cls)) : list (gf cls) :=
  filter (fun c => negb (Zmod.eqb c Zmod.zero)) p.

End PolynomialRing.
End Sage.

(* ================================================================= *)
(** ** [field.py]: polynomial arithmetic *)

Module Poly.
Import Field.

Section Polynomials.
Context (field : FieldClass).

(** The zero element [field(0)]; [0 < MODULUS] in every class, so the
    constructor's assertion holds. *)
Definition field_0 : Field field := Zmod.of_Z (MODULUS field) 0.

(** The loop of [poly_strip] over [reversed(range(i))]. *)
Fixpoint poly_strip_from (p : list (Field field)) (i : nat) : list (Field field) :=
  match i with
  | O => []
  | S j =>
      if negb (eq (nth j p field_0) field_0) then firstn (S j) p
      else poly_strip_from p j
  end.

Definition poly_strip (p : list (Field field)) : list (Field field) :=
  poly_strip_from p (length p).

(** [p[-1]]: [IndexError] on the empty list. *)
Definition last_item (p : list (Field field)) : option (Field field) :=
  match p with
  | [] => None
  | _ => Some (last p field_0)
  end.

Definition poly_eval (p : list (Field field)) (eval_at : Field field)
  : option (Field field) :=
  if (length p =? 0)%nat then Some field_0
  else
    let p := poly_strip p in
    result <- last_item p ;;
    Some (fold_left (fun result c => add (mul result eval_at) c)
            (rev (removelast p)) result).

(** [zip(xs, ys)] is [combine]; [map(field, ...)] rebuilds each coefficient
    with the constructor, which keeps an element of [field.gf] as it is. *)
Definition poly_interp (xs ys : list (Field field)) : option (list (Field field)) :=
  p <- Sage.lagrange_polynomial (combine xs ys) ;;
  Some (poly_strip (map of_gf (Sage.coefficients p))).

End Polynomials.
End Poly.

(* ================================================================= *)
(** ** [idpf.py] *)

Module Idpf.
Import Field.

(** The class attributes of an [Idpf] instance. *)
Record Idpf : Type := {
  SHARES : Z;
  BITS : Z;
  VALUE_LEN : Z;
  KEY_SIZE : Z;
  RAND_SIZE : Z;
  field_inner : FieldClass;
  field_leaf : FieldClass
}.

Definition current_field (self : Idpf) (level : Z) : FieldClass :=
  if level <? BITS self - 1 then field_inner self else field_leaf self.

Definition is_prefix (self : Idpf) (x y level : Z) : option bool :=
  s <- Py.rshift y (BITS self - 1 - level) ;; Some (s =? x).

End Idpf.

(* ================================================================= *)
(** * Specification-side definitions

    What the properties below are stated with: the specification's reading of
    [is_prefix], the bit, chunk and Horner views of the codecs and of
    [poly_eval], and the executable primality certificates. *)

Module IdpfSpec.
Import Idpf.

(** [LSB(x, n)]: the least significant [n] bits of [x], in the words of the
    docstring of [Idpf.eval]. *)
Definition LSB (x n : Z) : Z := Z.land x (Z.ones n).

(** The most significant [n] bits of the [bits]-bit representation of [y]. *)
Definition MSB (bits y n : Z) : Z := Z.shiftr (LSB y bits) (bits - n).

(** [is_prefix] as the specification words it: the top [level] bits of the
    [BITS]-bit representation of [y] equal the low [level] bits of [x]. *)
Definition is_prefix_spec (self : Idpf) (x y level : Z) : bool :=
  MSB (BITS self) y level =? LSB x level.

(** An instance with [BITS = 4], as in the specification's example. *)
Definition idpf_bits4 : Idpf :=
  {| SHARES := 2; BITS := 4; VALUE_LEN := 2; KEY_SIZE := 16; RAND_SIZE := 32;
     field_inner := Field.Field64; field_leaf := Field.Field255 |}.

End IdpfSpec.

Module FieldSpec.
Import Field.

(** What the specification asks of the generator of an FFT-friendly class
    built on [base]. *)
Definition gen_spec (cls : FieldClass) (base : Z) : Prop :=
  exists order g,
    GEN_ORDER cls = Some order /\ gen cls = Some g /\
    (b <- new cls base ;; pow b ((MODULUS cls - 1) / order)) = Some g /\
    pow g order = new cls 1 /\
    pow g (order / 2) <> new cls 1 /\
    (order | MODULUS cls - 1) /\
    (exists k, 0 <= k /\ order = 2 ^ k /\ ~ (2 ^ (k + 1) | MODULUS cls - 1)).

(** The list of the results of [f], or the first exception. *)
Fixpoint mapM {A B : Type} (f : A -> option B) (xs : list A) : option (list B) :=
  match xs with
  | [] => Some []
  | x :: rest => y <- f x ;; ys <- mapM f rest ;; Some (y :: ys)
  end.

(** The field element of bit [l] of [v]. *)
Definition bit_elem (cls : FieldClass) (v l : Z) : Field cls :=
  Zmod.of_Z (MODULUS cls) (Z.b2z (Z.testbit v l)).

(** [sum of vec[i] * 2^(s+i)] *)
Fixpoint weighted_sum (s : Z) (vec : list Z) : Z :=
  match vec with
  | [] => 0
  | b :: rest => b * 2 ^ s + weighted_sum (s + 1) rest
  end.

(** A list of chunks of [L] items each. *)
Definition chunked {A : Type} (L : nat) (cs : list (list A)) : Prop :=
  Forall (fun c => length c = L) cs.

(** The encoding of one element, and the decoding of one chunk. *)
Definition encode_elem {cls : FieldClass} (x : Field cls) : list byte :=
  Common.to_le_bytes (as_unsigned x) (ENCODED_SIZE cls).

Definition decode_chunk (cls : FieldClass) (c : list byte) : option (Field cls) :=
  let x := Common.from_le_bytes c in
  if x >=? MODULUS cls then None else new cls x.

(** Horner's rule on a coefficient list, lowest degree first. *)
Definition horner {field : FieldClass} (p : list (Field field)) (x : Field field)
  : Field field :=
  fold_right (fun c acc => add c (mul acc x)) (Poly.field_0 field) p.

(** The product of the [x - xj], for [xj] in [l]. *)
Definition prod_diff {cls : FieldClass} (x : gf cls) (l : list (gf cls)) : gf cls :=
  fold_right (fun xj acc => Zmod.mul (Zmod.sub x xj) acc) Zmod.one l.

End FieldSpec.

(** Primality certificates: trial division for the small primes, lines of
    Pocklington's criterion for the large ones. *)
Module Primality.

Fixpoint no_divisor_from (fuel : nat) (d n : Z) : bool :=
  match fuel with
  | O => false
  | S f =>
      if n <? d * d then true
      else if n mod d =? 0 then false
      else no_divisor_from f (d + 1) n
  end.

Definition trial_division (n : Z) : bool :=
  (1 <? n) && no_divisor_from (S (Z.to_nat (Z.sqrt n))) 2 n.

(** Modular exponentiation, by square-and-multiply. *)
Definition powmod (a e n : Z) : Z := Zmod.to_Z (Zmod.pow (Zmod.of_Z n a) e).

(** One line of a certificate for [N]: a prime [q], an exponent [e] and a
    witness [a]. *)
Definition pock_ok (N : Z) (c : Z * Z * Z) : Prop :=
  let '(q, e, a) := c in
  Z.prime q /\ 0 <= e /\ (q | N - 1) /\
  powmod a (N - 1) N = 1 /\ Z.gcd (powmod a ((N - 1) / q) N - 1) N = 1.

(** The factored part of [N - 1] that a certificate covers. *)
Definition pock_F (cs : list (Z * Z * Z)) : Z :=
  fold_right (fun '(q, e, _) acc => q ^ e * acc) 1 cs.

(** The executable side of a certificate.  The full power [a^(N-1)] is
    computed from [b = a^((N-1)/q)] as [b^q]. *)
Definition line_check (N : Z) (c : Z * Z * Z) : bool :=
  let '(q, e, a) := c in
  let b := powmod a ((N - 1) / q) N in
  (0 <=? e) && ((N - 1) mod q =? 0) &&
  (powmod b q N =? 1) && (Z.gcd (b - 1) N =? 1).

Definition cert_check (N : Z) (cs : list (Z * Z * Z)) : bool :=
  (1 <? N) && ((N - 1) mod pock_F cs =? 0) && (N <=? pock_F cs * pock_F cs) &&
  forallb (line_check N) cs.

(** The large prime factor of [2^255 - 20]. *)
Definition q236 : Z :=
  74058212732561358302231226437062788676166966415465897661863160754340907.

End Primality.

(* ================================================================= *)
(** * Properties *)

Import FieldSpec.

(** ** The moduli are prime

    [Z.prime] is established by trial division for the small primes and by
    Pocklington's criterion for the large ones: if [F] divides [N - 1],
    [N <= F * F], and every prime [q] of [F] has a witness [a] with
    [a^(N-1) = 1 (mod N)] and [gcd (a^((N-1)/q) - 1) N = 1], then [N] is
    prime. *)

Module PrimalityFacts.
Import Primality.

Lemma no_divisor_from_sound fuel : forall d n,
  no_divisor_from fuel d n = true -> 2 <= d ->
  (forall k, 2 <= k < d -> ~ (k | n)) ->
  forall k, 2 <= k -> k * k <= n -> ~ (k | n).
Proof.
  induction fuel as [|f IH]; intros d n Hrun Hd Hsmall k Hk Hkk; simpl in Hrun.
  - discriminate.
  - destruct (Z.ltb_spec n (d * d)) as [Hlt|Hge].
    + apply Hsmall. split; [assumption|]. nia.
    + destruct (Z.eqb_spec (n mod d) 0) as [|Hnz]; [discriminate|].
      apply (IH (d + 1) n); try assumption; try lia.
      intros j Hj. destruct (Z.eq_dec j d) as [->|Hne].
      * intros Hdiv. apply Hnz. apply Z.mod_divide; [lia|assumption].
      * apply Hsmall. lia.
Qed.

Lemma small_divisor n m : 1 < m < n -> (m | n) ->
  exists k, 2 <= k /\ k * k <= n /\ (k | n).
Proof.
  intros Hm [c Hc].
  assert (1 < c) by nia.
  destruct (Z_le_gt_dec m c).
  - exists m. repeat split; try lia; try nia. exists c; assumption.
  - exists c. repeat split; try lia; try nia. exists m; lia.
Qed.

Lemma trial_division_sound n : trial_division n = true -> Z.prime n.
Proof.
  unfold trial_division. intros H. apply andb_prop in H as [H1 H2].
  apply Z.ltb_lt in H1. split; [assumption|].
  intros m Hm Hdiv.
  destruct (small_divisor n m Hm Hdiv) as (k & Hk & Hkk & Hkn).
  revert Hkn. apply (no_divisor_from_sound _ 2 n H2); try lia.
Qed.

Lemma exists_prime_divisor : forall m, 1 < m -> exists p, Z.prime p /\ (p | m).
Proof.
  intros m Hm. assert (Hpos : 0 <= m) by lia. revert Hm.
  pattern m. apply Z_lt_induction; [|assumption].
  clear m Hpos. intros m IH Hm.
  destruct (prime_dec m) as [Hp|Hnp].
  - exists m. split; [apply prime_alt; assumption | apply Z.divide_refl].
  - destruct (not_prime_divide m Hm Hnp) as (n & Hn & Hdiv).
    destruct (IH n ltac:(lia) ltac:(lia)) as (p & Hp & Hpn).
    exists p. split; [assumption|]. eapply Z.divide_trans; eassumption.
Qed.

Lemma powmod_spec a e n : 0 <= e -> powmod a e n = a ^ e mod n.
Proof.
  intros He. unfold powmod.
  rewrite Zmod.to_Z_pow_nonneg_r, Zmod.to_Z_of_Z, Z.mod_pow_l by assumption.
  reflexivity.
Qed.

Section PrimeDivisor.
Variables (N p : Z).
Hypothesis HN : 1 < N.
Hypothesis Hp : Z.prime p.
Hypothesis HpN : (p | N).

Let g := Z.gcd (N - 1) (p - 1).

Lemma pow_one_mod_p a e : 0 < e -> powmod a e N = 1 ->
  exists x : Zstar p, Zstar.pow x e = Zstar.one /\
    forall k, 0 <= k -> Zstar.pow x k = Zstar.one -> powmod a k N mod p = 1.
Proof.
  intros He Ha. pose proof (Z.prime_ge_2 _ Hp) as Hp2.
  rewrite powmod_spec in Ha by lia.
  assert (Hap : a ^ e mod p = 1).
  { rewrite <- (Z.mod_mod_divide _ N p HpN), Ha. apply Z.mod_1_l; lia. }
  assert (Hco : Z.coprime (Zmod.to_Z (Zmod.of_Z p a)) p).
  { rewrite Zmod.to_Z_of_Z. apply Z.coprime_mod_l_iff.
    unfold Z.coprime. rewrite Z.gcd_comm. apply Z.coprime_prime_l; [assumption|].
    intros [c Hc]. subst a.
    replace e with (Z.succ (e - 1)) in Hap by lia.
    rewrite Z.pow_succ_r in Hap by lia.
    replace (c * p * (c * p) ^ (e - 1)) with ((c * (c * p) ^ (e - 1)) * p) in Hap by ring.
    rewrite Z.mod_mul in Hap by lia. discriminate. }
  exists (Zstar.of_Zmod (Zmod.of_Z p a)).
  assert (Hpow : forall k, 0 <= k ->
    Zmod.to_Z (Zstar.to_Zmod (Zstar.pow (Zstar.of_Zmod (Zmod.of_Z p a)) k)) = a ^ k mod p).
  { intros k Hk.
    rewrite Zstar.to_Zmod_pow, Zstar.to_Zmod_of_Zmod by assumption.
    rewrite Zmod.to_Z_pow_nonneg_r, Zmod.to_Z_of_Z, Z.mod_pow_l by assumption.
    reflexivity. }
  split.
  - apply Zstar.to_Zmod_inj, Zmod.to_Z_inj.
    rewrite Hpow by lia. rewrite Hap, Zstar.to_Zmod_1, Zmod.to_Z_1_pos by lia.
    reflexivity.
  - intros k Hk Hone.
    rewrite powmod_spec by assumption.
    rewrite (Z.mod_mod_divide _ N p HpN), <- Hpow by assumption.
    rewrite Hone, Zstar.to_Zmod_1, Zmod.to_Z_1_pos by lia. reflexivity.
Qed.

Lemma pock_line_not_dividing c : pock_ok N c ->
  let '(q, _, _) := c in ~ (q | (N - 1) / g).
Proof.
  destruct c as [[q e] a]. intros (Hq & He & HqN & Hfull & Hgcd) Hqt.
  pose proof (Z.prime_ge_2 _ Hp) as Hp2. pose proof (Z.prime_ge_2 _ Hq) as Hq2.
  destruct (pow_one_mod_p a (N - 1) ltac:(lia) Hfull) as (x & Hx & Hback).
  assert (Hg : Zstar.pow x g = Zstar.one).
  { destruct (Z.gcd_bezout (N - 1) (p - 1) g eq_refl) as (u & v & Huv).
    rewrite <- Huv, Zstar.pow_add_r.
    rewrite (Z.mul_comm u), (Z.mul_comm v), !Zstar.pow_mul_r.
    rewrite Hx. replace (p - 1) with (Z.pred p) by lia.
    rewrite (Zstar.fermat x Hp), !Zstar.pow_1_l. apply Zstar.mul_1_l. }
  assert (Hgdiv : (g | N - 1)) by apply Z.gcd_divide_l.
  assert (Hgpos : 0 < g).
  { pose proof (Z.gcd_nonneg (N - 1) (p - 1)).
    assert (g <> 0); [|unfold g in *; lia].
    intros H0. apply Z.gcd_eq_0 in H0. lia. }
  destruct Hgdiv as [t Ht]. destruct Hqt as [s Hs].
  rewrite Ht, Z.div_mul in Hs by lia. subst t.
  destruct HqN as [r Hr].
  assert (Hdivq : (N - 1) / q = s * g).
  { rewrite Ht. replace (s * q * g) with (s * g * q) by ring. apply Z.div_mul; lia. }
  assert (Hs0 : 0 <= s) by nia.
  assert (Hone : powmod a ((N - 1) / q) N mod p = 1).
  { apply Hback; [rewrite Hdivq; nia|].
    rewrite Hdivq, (Z.mul_comm s), Zstar.pow_mul_r, Hg. apply Zstar.pow_1_l. }
  assert (Hpd : (p | powmod a ((N - 1) / q) N - 1)).
  { apply Z.mod_divide; [lia|].
    rewrite Zminus_mod, Hone, (Z.mod_1_l p) by lia. reflexivity. }
  pose proof (Z.gcd_greatest _ _ _ Hpd HpN) as Hp1. rewrite Hgcd in Hp1.
  apply Z.divide_1_r_nonneg in Hp1; lia.
Qed.

Lemma pock_F_divides_pred cs : Forall (pock_ok N) cs -> (pock_F cs | N - 1) ->
  0 < pock_F cs <= p - 1.
Proof.
  intros Hcs HF. pose proof (Z.prime_ge_2 _ Hp) as Hp2.
  assert (Hco : Z.coprime (pock_F cs) ((N - 1) / g) /\ 0 < pock_F cs).
  { clear HF. induction Hcs as [|c cs Hc Hcs IH]; simpl.
    - split; [apply Z.coprime_1_l | lia].
    - destruct IH as [IHco IHpos].
      pose proof (pock_line_not_dividing c Hc) as Hnd.
      destruct c as [[q e] a]. destruct Hc as (Hq & He & _).
      pose proof (Z.prime_ge_2 _ Hq) as Hq2. split.
      + apply Z.coprime_mul_l; [|assumption].
        apply Z.coprime_pow_l; [assumption|].
        apply Z.coprime_prime_l; assumption.
      + apply Z.mul_pos_pos; [apply Z.pow_pos_nonneg; lia | assumption]. }
  destruct Hco as [Hco HFpos]. split; [assumption|].
  assert (Hgdiv : (g | N - 1)) by apply Z.gcd_divide_l.
  assert (Hgp : (g | p - 1)) by apply Z.gcd_divide_r.
  assert (Hsplit : N - 1 = (N - 1) / g * g).
  { destruct Hgdiv as [t Ht]. rewrite Ht at 1.
    destruct (Z.eq_dec g 0) as [H0|H0].
    - rewrite H0 in *. lia.
    - rewrite Ht, Z.div_mul by assumption. reflexivity. }
  rewrite Hsplit in HF. apply Z.gauss in HF; [|assumption].
  apply Z.divide_pos_le; [lia|].
  eapply Z.divide_trans; eassumption.
Qed.

End PrimeDivisor.

Theorem pocklington N cs :
  1 < N -> Forall (pock_ok N) cs -> (pock_F cs | N - 1) ->
  N <= pock_F cs * pock_F cs -> Z.prime N.
Proof.
  intros HN Hcs HF Hbig. split; [assumption|].
  intros m Hm Hdiv.
  destruct (small_divisor N m Hm Hdiv) as (k & Hk & Hkk & HkN).
  destruct (exists_prime_divisor k ltac:(lia)) as (p & Hp & Hpk).
  assert (HpN : (p | N)) by (eapply Z.divide_trans; eassumption).
  pose proof (pock_F_divides_pred N p HN Hp HpN cs Hcs HF) as HFp.
  assert (p <= k) by (apply Z.divide_pos_le; [lia | assumption]).
  nia.
Qed.

Lemma powmod_powmod a x y n : 0 <= x -> 0 <= y ->
  powmod (powmod a x n) y n = powmod a (x * y) n.
Proof.
  intros Hx Hy. rewrite !powmod_spec by (try apply Z.mul_nonneg_nonneg; assumption).
  rewrite Z.mod_pow_l, Z.pow_mul_r by assumption. reflexivity.
Qed.

Lemma pock_F_pos N cs : Forall (pock_ok N) cs -> 0 < pock_F cs.
Proof.
  induction 1 as [|[[q e] a] cs (Hq & He & _) _ IH]; simpl; [lia|].
  pose proof (Z.prime_ge_2 _ Hq).
  apply Z.mul_pos_pos; [apply Z.pow_pos_nonneg; lia | assumption].
Qed.

Lemma line_check_sound N c :
  1 < N -> Z.prime (fst (fst c)) -> line_check N c = true -> pock_ok N c.
Proof.
  destruct c as [[q e] a]. simpl. intros HN Hq H.
  apply andb_prop in H as [H Hgcd]. apply andb_prop in H as [H Hpow].
  apply andb_prop in H as [He Hdiv].
  pose proof (Z.prime_ge_2 _ Hq).
  apply Z.eqb_eq in Hdiv, Hpow, Hgcd.
  assert (Hq_div : (q | N - 1)) by (apply Z.mod_divide; [lia | assumption]).
  split; [assumption|]. split; [apply Z.leb_le; assumption|].
  split; [assumption|]. split; [|assumption].
  rewrite powmod_powmod in Hpow; [|apply Z.div_pos; lia | lia].
  destruct Hq_div as [k Hk]. rewrite Hk in Hpow |- *.
  rewrite Z.div_mul in Hpow by lia. assumption.
Qed.

Lemma pocklington_check N cs :
  Forall (fun c => Z.prime (fst (fst c))) cs -> cert_check N cs = true -> Z.prime N.
Proof.
  unfold cert_check. intros Hprimes H.
  apply andb_prop in H as [H Hall]. apply andb_prop in H as [H Hbig].
  apply andb_prop in H as [HN Hdiv]. apply Z.ltb_lt in HN.
  assert (Hlines : Forall (pock_ok N) cs).
  { rewrite forallb_forall in Hall. rewrite Forall_forall in *.
    intros c Hin. apply line_check_sound; auto. }
  pose proof (pock_F_pos N cs Hlines).
  apply (pocklington N cs).
  - assumption.
  - assumption.
  - apply Z.mod_divide; [lia | apply Z.eqb_eq; assumption].
  - apply Z.leb_le; assumption.
Qed.

Create HintDb primes.

Ltac by_trial_division := apply trial_division_sound; vm_compute; reflexivity.
Ltac by_certificate cs :=
  apply (pocklington_check _ cs);
  [ repeat (apply Forall_cons; [simpl; solve [auto with primes] |]); apply Forall_nil
  | vm_compute; reflexivity ].

Lemma prime_127 : Z.prime 127. Proof. by_trial_division. Qed.
Lemma prime_353 : Z.prime 353. Proof. by_trial_division. Qed.
Lemma prime_75707 : Z.prime 75707. Proof. by_trial_division. Qed.
Lemma prime_8574133 : Z.prime 8574133. Proof. by_trial_division. Qed.
#[global] Hint Resolve Z.prime_2 prime_127 prime_353 prime_75707 prime_8574133 : primes.

Lemma prime_1919519569386763 : Z.prime 1919519569386763.
Proof. by_certificate [(8574133, 1, 2); (127, 1, 2)]. Qed.
#[global] Hint Resolve prime_1919519569386763 : primes.

Lemma prime_75445702479781427272750846543864801 :
  Z.prime 75445702479781427272750846543864801.
Proof. by_certificate [(1919519569386763, 1, 2); (75707, 1, 2)]. Qed.
#[global] Hint Resolve prime_75445702479781427272750846543864801 : primes.

Lemma prime_q236 : Z.prime q236.
Proof. by_certificate [(75445702479781427272750846543864801, 1, 2); (353, 1, 2)]. Qed.
#[global] Hint Resolve prime_q236 : primes.

End PrimalityFacts.

(** ** The field classes *)

Section FieldFacts.
Import Field FieldSpec.

Lemma MODULUS_prime (cls : FieldClass) : Z.prime (MODULUS cls).
Proof.
  destruct cls.
  - exact Z.prime_2.
  - PrimalityFacts.by_certificate [(2, 32, 7)].
  - PrimalityFacts.by_certificate [(2, 64, 3)].
  - PrimalityFacts.by_certificate [(2, 66, 7)].
  - PrimalityFacts.by_certificate [(Primality.q236, 1, 2)].
Qed.

Lemma MODULUS_ge_2 (cls : FieldClass) : 2 <= MODULUS cls.
Proof. apply Z.prime_ge_2, MODULUS_prime. Qed.

Lemma new_small (cls : FieldClass) (v : Z) :
  v < MODULUS cls -> new cls v = Some (Zmod.of_Z (MODULUS cls) v).
Proof.
  intros Hv. unfold new. destruct (Z.ltb_spec v (MODULUS cls)); [reflexivity | lia].
Qed.

Lemma new_0 (cls : FieldClass) : new cls 0 = Some Zmod.zero.
Proof. pose proof (MODULUS_ge_2 cls). rewrite new_small by lia. reflexivity. Qed.

Lemma new_1 (cls : FieldClass) : new cls 1 = Some Zmod.one.
Proof. pose proof (MODULUS_ge_2 cls). rewrite new_small by lia. reflexivity. Qed.

(** C9.  In every concrete field class, for all elements [a], [b], [c]:
    addition is associative, multiplication distributes over addition,
    [a + (-a)] is [Field(0)], [a ** 0] is [Field(1)], and when [a] is not
    [Field(0)] its inverse exists and [a * a.inv()] is [Field(1)]. *)
Theorem field_axioms (cls : FieldClass) (a b c : Field cls) :
  add (add a b) c = add a (add b c) /\
  mul a (add b c) = add (mul a b) (mul a c) /\
  Some (add a (neg a)) = new cls 0 /\
  pow a 0 = new cls 1 /\
  (Some a <> new cls 0 ->
   exists i, inv a = Some i /\ Some (mul a i) = new cls 1).
Proof.
  rewrite new_0, new_1. unfold add, mul, neg, pow, inv, of_gf, Field, gf in *.
  split; [symmetry; apply Zmod.add_assoc|].
  split; [apply Zmod.mul_add_r|].
  split; [f_equal; apply Zmod.add_opp_same_r|].
  split; [simpl; f_equal; apply Zmod.pow_0_r|].
  intros Hnz.
  assert (Ha : a <> Zmod.zero) by congruence.
  destruct (Zmod.eqb_spec a Zmod.zero) as [|_]; [contradiction|].
  eexists. split; [reflexivity|]. f_equal.
  apply Zmod.mul_inv_same_r_prime; [apply MODULUS_prime | assumption].
Qed.

Lemma field_axioms_witness :
  exists i, inv (Zmod.of_Z (MODULUS Field2) 1) = Some i /\
            Some (mul (Zmod.of_Z (MODULUS Field2) 1) i) = new Field2 1.
Proof.
  apply (field_axioms Field2 (Zmod.of_Z _ 1) (Zmod.of_Z _ 1) (Zmod.of_Z _ 0)).
  vm_compute. discriminate.
Defined.

Ltac gen_spec_tac k g :=
  exists (2 ^ k), (Zmod.of_Z _ g);
  split; [reflexivity|];
  split; [vm_compute; reflexivity|];
  split; [vm_compute; reflexivity|];
  split; [vm_compute; reflexivity|];
  split; [vm_compute; discriminate|];
  split; [apply Z.mod_divide; [vm_compute; discriminate | vm_compute; reflexivity]|];
  exists k; split; [vm_compute; discriminate|]; split; [reflexivity|];
  intros Hd; apply Z.mod_divide in Hd; [vm_compute in Hd | vm_compute]; discriminate.

(** C7.  For [Field64], [Field96] and [Field128], with bases 7, 3 and 7:
    [gen()] is [base ^ ((MODULUS - 1) / GEN_ORDER)], [gen() ^ GEN_ORDER] is 1,
    [gen() ^ (GEN_ORDER / 2)] is not 1, [GEN_ORDER] divides [MODULUS - 1] and
    is the largest power of two that does. *)
Theorem gen_properties :
  gen_spec Field64 7 /\ gen_spec Field96 3 /\ gen_spec Field128 7.
Proof.
  split; [|split].
  - gen_spec_tac 32 1753635133440165772.
  - gen_spec_tac 64 34233996298771126927060021012.
  - gen_spec_tac 66 145091266659756586618791329697897684742.
Qed.
End FieldFacts.


Section IdpfFacts.
Import Field Idpf IdpfSpec.

(** C10.  For a level in [[0, BITS)], [current_field] returns the leaf field
    when [level = BITS - 1] and the inner field otherwise. *)
Theorem current_field_boundary (self : Idpf) (level : Z) :
  0 <= level < BITS self ->
  (level = BITS self - 1 -> current_field self level = field_leaf self) /\
  (level <> BITS self - 1 -> current_field self level = field_inner self).
Proof.
  intros Hlevel. unfold current_field.
  destruct (Z.ltb_spec level (BITS self - 1)); split; intros; (reflexivity || lia).
Qed.

Lemma current_field_boundary_witness :
  (3 = BITS idpf_bits4 - 1 -> current_field idpf_bits4 3 = field_leaf idpf_bits4) /\
  (3 <> BITS idpf_bits4 - 1 -> current_field idpf_bits4 3 = field_inner idpf_bits4).
Proof. apply (current_field_boundary idpf_bits4 3). simpl. lia. Defined.

Lemma LSB_small x n : 0 <= n -> 0 <= x < 2 ^ n -> LSB x n = x.
Proof.
  intros Hn Hx. unfold LSB. rewrite Z.land_ones by assumption.
  apply Z.mod_small; assumption.
Qed.

(** C1, as stated, fails: with [BITS = 4] the top 2 bits of [10 = 0b1010]
    are [0b10 = 2], the low 2 bits of [2], yet [is_prefix(2, 10, 2)] is
    [False]: the code shifts [y] by [BITS - 1 - level = 1] and compares
    [5] with [2]. *)
Lemma is_prefix_spec_counterexample :
  is_prefix_spec idpf_bits4 2 10 2 = true /\ is_prefix idpf_bits4 2 10 2 = Some false.
Proof. split; reflexivity. Qed.

(** C1, amended.  For a level in [[0, BITS)], [y] in [[0, 2^BITS)] and [x] in
    [[0, 2^(level+1))], [is_prefix(x, y, level)] returns [True] exactly when
    the top [level + 1] bits of the [BITS]-bit representation of [y] equal the
    low [level + 1] bits of [x]: level [l] addresses prefixes of [l + 1] bits. *)
Theorem is_prefix_top_bits (self : Idpf) (x y level : Z) :
  0 <= level < BITS self ->
  0 <= y < 2 ^ BITS self ->
  0 <= x < 2 ^ (level + 1) ->
  (is_prefix self x y level = Some true <->
   MSB (BITS self) y (level + 1) = LSB x (level + 1)).
Proof.
  intros Hlevel Hy Hx. unfold is_prefix, Py.rshift, MSB.
  rewrite (LSB_small y) by (assumption || lia).
  rewrite (LSB_small x) by (assumption || lia).
  destruct (Z.ltb_spec (BITS self - 1 - level) 0); [lia|]. simpl.
  replace (BITS self - (level + 1)) with (BITS self - 1 - level) by lia.
  split.
  - intros H1. injection H1 as H1. apply Z.eqb_eq; assumption.
  - intros H1. f_equal. apply Z.eqb_eq; assumption.
Qed.

Lemma is_prefix_top_bits_witness :
  is_prefix idpf_bits4 5 10 2 = Some true <-> MSB (BITS idpf_bits4) 10 (2 + 1) = LSB 5 (2 + 1).
Proof. apply (is_prefix_top_bits idpf_bits4 5 10 2); simpl; lia. Defined.
End IdpfFacts.

Section ConditionalSelect.
Import Field FieldSpec.

Lemma byte_of_int_land_255 (b : byte) :
  Py.byte_of_int (Z.land 255 (Py.int_of_byte b)) = Some b.
Proof. destruct b; reflexivity. Qed.

Lemma bytes_keep (inp : list byte) :
  Py.bytes (map (fun x => Z.land 255 (Py.int_of_byte x)) inp) = Some inp.
Proof.
  induction inp as [|b inp IH]; cbn [map Py.bytes]; [reflexivity|].
  rewrite byte_of_int_land_255, IH. reflexivity.
Qed.

Lemma bytes_clear (inp : list byte) :
  Py.bytes (map (fun x => Z.land 0 (Py.int_of_byte x)) inp) = Some (repeat x00 (length inp)).
Proof.
  induction inp as [|b inp IH]; cbn [map Py.bytes length repeat]; [reflexivity|].
  rewrite IH. reflexivity.
Qed.

Lemma Field2_values (self : Field Field2) : as_unsigned self = 0 \/ as_unsigned self = 1.
Proof.
  unfold as_unsigned.
  pose proof (Zmod.unsigned_pos_bound self ltac:(reflexivity)) as H.
  assert (HM : MODULUS Field2 = 2) by reflexivity. lia.
Qed.

(** C8.  The value of a [Field2] element is 0 or 1; [conditional_select]
    returns [inp] itself when it is 1 and the all-zero string of the length of
    [inp] when it is 0, so in both cases a string as long as [inp]. *)
Theorem conditional_select_spec (self : Field Field2) (inp : list byte) :
  (as_unsigned self = 0 \/ as_unsigned self = 1) /\
  conditional_select self inp =
    Some (if as_unsigned self =? 1 then inp else repeat x00 (length inp)) /\
  option_map (@length byte) (conditional_select self inp) = Some (length inp).
Proof.
  split; [apply Field2_values|].
  assert (Hsel : conditional_select self inp =
    Some (if as_unsigned self =? 1 then inp else repeat x00 (length inp))).
  { unfold conditional_select.
    destruct (Field2_values self) as [Hv|Hv]; rewrite Hv; simpl.
    - apply bytes_clear.
    - apply bytes_keep. }
  split; [assumption|]. rewrite Hsel. simpl. f_equal.
  destruct (as_unsigned self =? 1); [reflexivity | apply repeat_length].
Qed.
End ConditionalSelect.

(** ** Loops that collect results *)

Section Loops.
Import FieldSpec.
Context {A B : Type}.

Lemma for_each_cons {S : Type} (x : A) (xs : list A) (body : S -> A -> option S) (s : S) :
  Py.for_each (x :: xs) body s = s' <- body s x ;; Py.for_each xs body s'.
Proof.
  unfold Py.for_each. simpl. destruct (body s x) as [s'|]; [reflexivity|].
  simpl. induction xs as [|y ys IH]; [reflexivity | exact IH].
Qed.

Lemma for_each_collect (f : A -> option B) (xs : list A) : forall acc,
  Py.for_each xs (fun acc x => e <- f x ;; Some (acc ++ [e])) acc =
  ys <- mapM f xs ;; Some (acc ++ ys).
Proof.
  induction xs as [|x xs IH]; intros acc.
  - simpl. rewrite app_nil_r. reflexivity.
  - rewrite for_each_cons. simpl. destruct (f x) as [e|]; simpl; [|reflexivity].
    rewrite IH. destruct (mapM f xs) as [ys|]; simpl; [|reflexivity].
    rewrite <- app_assoc. reflexivity.
Qed.

Lemma for_each_ext {S : Type} (xs : list A) (body body' : S -> A -> option S) :
  (forall s x, body s x = body' s x) ->
  forall s, Py.for_each xs body s = Py.for_each xs body' s.
Proof.
  intros Hext. induction xs as [|x xs IH]; intros s; [reflexivity|].
  rewrite !for_each_cons, Hext. destruct (body' s x); simpl; [apply IH | reflexivity].
Qed.

Lemma mapM_total (f : A -> option B) (g : A -> B) (xs : list A) :
  (forall x, In x xs -> f x = Some (g x)) -> mapM f xs = Some (map g xs).
Proof.
  induction xs as [|x xs IH]; intros H; simpl; [reflexivity|].
  rewrite (H x) by (left; reflexivity). simpl.
  rewrite IH by (intros; apply H; right; assumption). reflexivity.
Qed.

Lemma mapM_length (f : A -> option B) (xs : list A) (ys : list B) :
  mapM f xs = Some ys -> length ys = length xs.
Proof.
  revert ys. induction xs as [|x xs IH]; intros ys; simpl.
  - intros [= <-]. reflexivity.
  - destruct (f x); simpl; [|discriminate].
    destruct (mapM f xs) as [zs|]; simpl; [|discriminate].
    intros [= <-]. simpl. rewrite (IH zs eq_refl). reflexivity.
Qed.

Lemma mapM_None (f : A -> option B) (xs : list A) :
  mapM f xs = None <-> exists x, In x xs /\ f x = None.
Proof.
  induction xs as [|x xs IH]; simpl.
  - split; [discriminate | intros (x & [] & _)].
  - destruct (f x) as [y|] eqn:Hfx; simpl.
    + destruct (mapM f xs) as [ys|]; simpl.
      * split; [discriminate|]. intros (z & [<-|Hin] & Hz); [congruence|].
        assert (Some ys = None) by (apply (proj2 IH); eauto). discriminate.
      * split; [|reflexivity]. intros _.
        destruct (proj1 IH eq_refl) as (z & Hin & Hz). eauto.
    + split; [|reflexivity]. intros _. eauto.
Qed.

End Loops.

Lemma mapM_map {A B C : Type} (f : B -> option C) (g : A -> B) (xs : list A) :
  mapM f (map g xs) = mapM (fun x => f (g x)) xs.
Proof.
  induction xs as [|x xs IH]; simpl; [reflexivity|]. rewrite IH. reflexivity.
Qed.

(** ** Bit vectors *)

Section BitVectors.
Import Field FieldSpec.
Context (cls : FieldClass).

Lemma land_shiftr_1 (v l : Z) : 0 <= l ->
  Z.land (Z.shiftr v l) 1 = Z.b2z (Z.testbit v l).
Proof.
  intros Hl. change 1 with (Z.ones 1). rewrite Z.land_ones by lia.
  rewrite Z.shiftr_div_pow2 by assumption. rewrite Z.testbit_spec' by assumption.
  reflexivity.
Qed.

Lemma encode_into_bit_vector_ok (v bits : Z) :
  0 <= bits -> v < 2 ^ bits ->
  encode_into_bit_vector cls v bits =
  Some (map (bit_elem cls v) (map Z.of_nat (seq 0 (Z.to_nat bits)))).
Proof.
  intros Hbits Hv. unfold encode_into_bit_vector.
  destruct (Z.geb_spec v (2 ^ bits)); [lia|].
  rewrite for_each_collect.
  rewrite (mapM_total _ (bit_elem cls v)); [reflexivity|].
  intros l Hin. apply in_map_iff in Hin as (n & <- & _).
  rewrite land_shiftr_1 by lia. pose proof (MODULUS_ge_2 cls).
  apply new_small. destruct (Z.testbit v (Z.of_nat n)); simpl; lia.
Qed.

Lemma decode_loop (vec : list (Field cls)) : forall (s : nat) (decoded : Field cls),
  2 ^ (Z.of_nat s + Z.of_nat (length vec)) <= MODULUS cls ->
  Py.for_each (combine (seq s (length vec)) vec)
    (fun decoded '(l, bit) =>
       c <- new cls (Z.shiftl 1 (Z.of_nat l)) ;; Some (add decoded (mul c bit)))
    decoded =
  Some (Zmod.of_Z (MODULUS cls)
          (Zmod.to_Z decoded + weighted_sum (Z.of_nat s) (map Zmod.to_Z vec))).
Proof.
  induction vec as [|bit vec IH]; intros s decoded Hfit.
  - simpl. rewrite Z.add_0_r, Zmod.of_Z_to_Z. reflexivity.
  - cbn [length seq combine map weighted_sum]. rewrite for_each_cons.
    assert (Hs : 2 ^ Z.of_nat s < MODULUS cls).
    { cbn [length] in Hfit.
      assert (2 ^ Z.of_nat s < 2 ^ (Z.of_nat s + Z.of_nat (S (length vec)))); [|lia].
      apply Z.pow_lt_mono_r; lia. }
    rewrite Z.shiftl_1_l, new_small by assumption. cbn [Py.bind].
    rewrite IH.
    + f_equal. apply Zmod.of_Z_inj. unfold add, mul, of_gf.
      rewrite Zmod.to_Z_add, Zmod.to_Z_mul, Zmod.to_Z_of_Z.
      replace (Z.of_nat (S s)) with (Z.of_nat s + 1) by lia.
      rewrite Z.mul_mod_idemp_l, Z.add_mod_idemp_r, Z.add_mod_idemp_l
        by (pose proof (MODULUS_ge_2 cls); lia).
      f_equal. ring.
    + cbn [length] in Hfit. replace (Z.of_nat (S s) + Z.of_nat (length vec))
        with (Z.of_nat s + Z.of_nat (S (length vec))) by lia. assumption.
Qed.

Lemma weighted_sum_bits (v : Z) (n : nat) : forall s : nat,
  0 <= v ->
  weighted_sum (Z.of_nat s)
    (map (fun l => Z.b2z (Z.testbit v (Z.of_nat l))) (seq s n)) =
  v mod 2 ^ (Z.of_nat s + Z.of_nat n) - v mod 2 ^ Z.of_nat s.
Proof.
  induction n as [|n IH]; intros s Hv.
  - simpl. rewrite Z.add_0_r. lia.
  - cbn [seq map weighted_sum].
    replace (Z.of_nat s + 1) with (Z.of_nat (S s)) by lia. rewrite IH by assumption.
    replace (Z.of_nat (S s) + Z.of_nat n) with (Z.of_nat s + Z.of_nat (S n)) by lia.
    replace (Z.of_nat (S s)) with (Z.of_nat s + 1) by lia.
    rewrite (Z.pow_add_r 2 (Z.of_nat s) 1) by lia.
    rewrite (Z.rem_mul_r v (2 ^ Z.of_nat s) (2 ^ 1)) by (try apply Z.pow_nonzero; lia).
    rewrite Z.testbit_spec' by lia. change (2 ^ 1) with 2. ring.
Qed.

Lemma bit_elem_values (v : Z) (s n : nat) :
  map Zmod.to_Z (map (bit_elem cls v) (map Z.of_nat (seq s n))) =
  map (fun l => Z.b2z (Z.testbit v (Z.of_nat l))) (seq s n).
Proof.
  rewrite !map_map. apply map_ext. intros l. unfold bit_elem.
  apply Zmod.to_Z_of_Z_small. pose proof (MODULUS_ge_2 cls).
  destruct (Z.testbit v (Z.of_nat l)); simpl; lia.
Qed.

(** C6.  For [bits >= 0], [0 <= v < 2^bits] and [MODULUS > 2^bits],
    [encode_into_bit_vector(v, bits)] succeeds with exactly [bits] elements,
    element [l] being the field element of bit [l] of [v] (least significant
    first), and [decode_from_bit_vector] maps the result to [Field(v)]. *)
Theorem bit_vector_roundtrip (v bits : Z) :
  0 <= bits -> 0 <= v < 2 ^ bits -> 2 ^ bits < MODULUS cls ->
  exists vec,
    encode_into_bit_vector cls v bits = Some vec /\
    length vec = Z.to_nat bits /\
    (forall l, (l < Z.to_nat bits)%nat ->
       Some (nth l vec Zmod.zero) = new cls (Z.b2z (Z.testbit v (Z.of_nat l)))) /\
    decode_from_bit_vector cls vec = new cls v.
Proof.
  intros Hbits Hv Hfit. pose proof (MODULUS_ge_2 cls) as HM.
  eexists. split; [apply encode_into_bit_vector_ok; lia|].
  assert (Hlen : length (map (bit_elem cls v) (map Z.of_nat (seq 0 (Z.to_nat bits))))
                 = Z.to_nat bits) by (rewrite !length_map, length_seq; reflexivity).
  split; [assumption|]. split.
  - intros l Hl. rewrite new_small by (destruct (Z.testbit v (Z.of_nat l)); simpl; lia).
    f_equal. rewrite map_map.
    rewrite (nth_indep _ Zmod.zero (bit_elem cls v (Z.of_nat 0)))
      by (rewrite length_map, length_seq; assumption).
    rewrite (map_nth (fun x => bit_elem cls v (Z.of_nat x))), seq_nth by assumption.
    reflexivity.
  - unfold decode_from_bit_vector. rewrite Hlen, Z2Nat.id by assumption.
    destruct (Z.eqb_spec (Z.shiftr (MODULUS cls) bits) 0) as [H0|_].
    + rewrite Z.shiftr_div_pow2 in H0 by assumption.
      apply Z.div_small_iff in H0; [|apply Z.pow_nonzero; lia]. lia.
    + rewrite new_0. cbn [Py.bind]. unfold Py.enumerate. rewrite decode_loop.
      * rewrite new_small by lia. f_equal. f_equal.
        rewrite Zmod.to_Z_0, bit_elem_values, weighted_sum_bits by lia.
        cbn [Z.of_nat Z.add]. rewrite Z2Nat.id by assumption.
        rewrite Z.pow_0_r, Z.mod_1_r, Z.mod_small by lia. lia.
      * rewrite Hlen, Z2Nat.id by assumption. cbn [Z.of_nat Z.add]. lia.
Qed.

End BitVectors.

Lemma bit_vector_roundtrip_witness :
  exists vec,
    Field.encode_into_bit_vector Field.Field64 6 4 = Some vec /\
    length vec = Z.to_nat 4 /\
    (forall l, (l < Z.to_nat 4)%nat ->
       Some (nth l vec Zmod.zero) = Field.new Field.Field64 (Z.b2z (Z.testbit 6 (Z.of_nat l)))) /\
    Field.decode_from_bit_vector Field.Field64 vec = Field.new Field.Field64 6.
Proof. apply (bit_vector_roundtrip Field.Field64 6 4); vm_compute; intuition discriminate. Defined.

(** ** Little-endian bytes *)

Section LittleEndian.
Import Common.

Lemma int_of_byte_range (b : byte) : 0 <= Py.int_of_byte b < 256.
Proof.
  unfold Py.int_of_byte. pose proof (Byte.to_N_bounded b) as H.
  lia.
Qed.

Lemma byte_of_int_of_byte (b : byte) : Byte.of_N (Z.to_N (Py.int_of_byte b)) = Some b.
Proof. unfold Py.int_of_byte. rewrite N2Z.id. apply Byte.of_to_N. Qed.

Lemma byte_of_small (z : Z) : 0 <= z < 256 ->
  exists b, Byte.of_N (Z.to_N z) = Some b /\ Py.int_of_byte b = z.
Proof.
  intros Hz. destruct (Byte.of_N (Z.to_N z)) as [b|] eqn:Hb.
  - exists b. split; [reflexivity|]. apply Byte.to_of_N in Hb.
    unfold Py.int_of_byte. rewrite Hb. lia.
  - apply Byte.of_N_None_iff in Hb. lia.
Qed.

Lemma to_le_bytes_length (val : Z) (n : nat) : length (to_le_bytes val n) = n.
Proof.
  revert val. induction n as [|n IH]; intros val; simpl; [reflexivity|].
  destruct (Byte.of_N (Z.to_N (val mod 256))); simpl; rewrite IH; reflexivity.
Qed.

Lemma from_le_bytes_range (encoded : list byte) :
  0 <= from_le_bytes encoded < 256 ^ Z.of_nat (length encoded).
Proof.
  induction encoded as [|b rest IH]; [simpl; lia|].
  cbn [from_le_bytes length]. pose proof (int_of_byte_range b).
  rewrite Nat2Z.inj_succ, Z.pow_succ_r by lia. lia.
Qed.

Lemma from_le_to_le (n : nat) : forall val,
  0 <= val < 256 ^ Z.of_nat n -> from_le_bytes (to_le_bytes val n) = val.
Proof.
  induction n as [|n IH]; intros val Hval.
  - simpl in *. lia.
  - rewrite Nat2Z.inj_succ, Z.pow_succ_r in Hval by lia. cbn [to_le_bytes].
    destruct (byte_of_small (val mod 256)) as (b & Hb & Hint);
      [apply Z.mod_pos_bound; lia|].
    rewrite Hb. cbn [from_le_bytes]. rewrite Hint, IH.
    + symmetry. rewrite Z.add_comm. apply Z.div_mod. lia.
    + split; [apply Z.div_pos; lia | apply Z.div_lt_upper_bound; lia].
Qed.

Lemma to_le_from_le (encoded : list byte) :
  to_le_bytes (from_le_bytes encoded) (length encoded) = encoded.
Proof.
  induction encoded as [|b rest IH]; [reflexivity|].
  cbn [from_le_bytes length to_le_bytes]. pose proof (int_of_byte_range b).
  replace ((Py.int_of_byte b + 256 * from_le_bytes rest) mod 256) with (Py.int_of_byte b).
  - rewrite byte_of_int_of_byte. f_equal.
    replace ((Py.int_of_byte b + 256 * from_le_bytes rest) / 256) with (from_le_bytes rest);
      [assumption|].
    rewrite (Z.mul_comm 256), Z.div_add, Z.div_small by lia. lia.
  - rewrite (Z.mul_comm 256), Z.mod_add, Z.mod_small by lia. reflexivity.
Qed.

End LittleEndian.

(** ** Chunks of a byte string *)

Section Chunks.
Import FieldSpec.
Context {A : Type} (L : nat).
Hypothesis L_pos : (0 < L)%nat.

Lemma concat_chunked_length (cs : list (list A)) :
  chunked L cs -> length (concat cs) = (length cs * L)%nat.
Proof.
  induction 1 as [|c cs Hc _ IH]; simpl; [reflexivity|].
  rewrite length_app, Hc, IH. reflexivity.
Qed.

Lemma range_step_multiple (n : nat) :
  Py.range_step (n * L) L = map (fun k => k * L)%nat (seq 0 n).
Proof.
  unfold Py.range_step. f_equal. f_equal.
  symmetry. apply (Nat.div_unique _ _ _ (L - 1)); lia.
Qed.

Lemma slice_chunk (cs : list (list A)) : chunked L cs -> forall k,
  (k < length cs)%nat ->
  Py.slice (concat cs) (k * L) (k * L + L) = nth k cs [].
Proof.
  unfold Py.slice. induction 1 as [|c cs Hc Hcs IH]; intros k Hk; simpl in Hk; [lia|].
  replace (k * L + L - k * L)%nat with L by lia.
  destruct k as [|k]; simpl.
  - rewrite firstn_app, Hc, Nat.sub_diag, firstn_O, app_nil_r.
    rewrite <- Hc. apply firstn_all.
  - rewrite skipn_app, Hc.
    rewrite (skipn_all2 c) by lia.
    replace (L + k * L - L)%nat with (k * L)%nat by lia. simpl.
    rewrite <- (IH k) by lia. f_equal. lia.
Qed.

Lemma slices_of_concat (cs : list (list A)) : chunked L cs ->
  map (fun i => Py.slice (concat cs) i (i + L)) (Py.range_step (length (concat cs)) L) = cs.
Proof.
  intros Hcs. rewrite concat_chunked_length, range_step_multiple, map_map by assumption.
  apply (nth_ext _ _ [] []); [rewrite length_map, length_seq; reflexivity|].
  intros k Hk. rewrite length_map, length_seq in Hk.
  rewrite (nth_indep _ [] ((fun i => Py.slice (concat cs) (i * L) (i * L + L)) 0%nat))
    by (rewrite length_map, length_seq; assumption).
  rewrite (map_nth (fun i => Py.slice (concat cs) (i * L) (i * L + L))), seq_nth by assumption.
  apply slice_chunk; assumption.
Qed.

Lemma chunks_exist (q : nat) : forall b : list A,
  length b = (q * L)%nat -> exists cs, chunked L cs /\ concat cs = b /\ length cs = q.
Proof.
  induction q as [|q IH]; intros b Hb.
  - exists []. destruct b; [|discriminate]. repeat split. constructor.
  - destruct (IH (skipn L b)) as (cs & Hcs & Hcat & Hlen).
    { rewrite length_skipn, Hb. simpl. lia. }
    exists (firstn L b :: cs). split; [|split].
    + constructor; [|assumption]. rewrite length_firstn, Hb. simpl. lia.
    + simpl. rewrite Hcat. apply firstn_skipn.
    + simpl. rewrite Hlen. reflexivity.
Qed.

End Chunks.

(** ** Encoding and decoding vectors *)

Section VectorCodec.
Import Field Common FieldSpec.
Context (cls : FieldClass).

Lemma ENCODED_SIZE_pos : (0 < ENCODED_SIZE cls)%nat.
Proof. destruct cls; simpl; lia. Qed.

Lemma MODULUS_fits : MODULUS cls <= 256 ^ Z.of_nat (ENCODED_SIZE cls).
Proof. destruct cls; vm_compute; discriminate. Qed.

Lemma encode_vec_concat (vec : list (Field cls)) :
  encode_vec cls vec = concat (map encode_elem vec).
Proof.
  unfold encode_vec.
  assert (H : forall acc, fold_left (fun encoded x =>
              encoded ++ to_le_bytes (as_unsigned x) (ENCODED_SIZE cls)) vec acc
            = acc ++ concat (map encode_elem vec)).
  { induction vec as [|x vec IH]; intros acc; simpl.
    - rewrite app_nil_r. reflexivity.
    - rewrite IH, <- app_assoc. reflexivity. }
  apply H.
Qed.

Lemma encoded_chunked (vec : list (Field cls)) :
  chunked (ENCODED_SIZE cls) (map encode_elem vec).
Proof.
  unfold chunked. apply Forall_map, Forall_forall. intros x _.
  apply to_le_bytes_length.
Qed.

Lemma decode_chunk_None (c : list byte) :
  decode_chunk cls c = None <-> MODULUS cls <= from_le_bytes c.
Proof.
  unfold decode_chunk. destruct (Z.geb_spec (from_le_bytes c) (MODULUS cls)).
  - split; [lia | reflexivity].
  - rewrite new_small by assumption. split; [discriminate | lia].
Qed.

Lemma decode_chunk_small (c : list byte) :
  from_le_bytes c < MODULUS cls ->
  decode_chunk cls c = Some (Zmod.of_Z (MODULUS cls) (from_le_bytes c)).
Proof.
  intros H. unfold decode_chunk.
  destruct (Z.geb_spec (from_le_bytes c) (MODULUS cls)); [lia|].
  apply new_small; assumption.
Qed.

Lemma decode_encode_elem (x : Field cls) : decode_chunk cls (encode_elem x) = Some x.
Proof.
  pose proof (MODULUS_ge_2 cls). pose proof MODULUS_fits.
  pose proof (Zmod.unsigned_pos_bound x ltac:(lia)) as Hx.
  unfold encode_elem, as_unsigned.
  rewrite decode_chunk_small; rewrite from_le_to_le by lia; [|lia].
  rewrite Zmod.of_Z_to_Z. reflexivity.
Qed.

Lemma decode_vec_chunks (cs : list (list byte)) :
  chunked (ENCODED_SIZE cls) cs ->
  decode_vec cls (concat cs) = mapM (decode_chunk cls) cs.
Proof.
  intros Hcs. pose proof ENCODED_SIZE_pos as HL. unfold decode_vec.
  rewrite (concat_chunked_length _ cs Hcs) at 1.
  rewrite Nat.Div0.mod_mul. cbn [Nat.eqb negb].
  rewrite (for_each_ext _ _
    (fun vec i => e <- decode_chunk cls
       (Py.slice (concat cs) i (i + ENCODED_SIZE cls)) ;; Some (vec ++ [e]))).
  - rewrite for_each_collect, <- (mapM_map (decode_chunk cls)), slices_of_concat by assumption.
    destruct (mapM (decode_chunk cls) cs); reflexivity.
  - intros vec i. unfold decode_chunk.
    destruct (_ >=? _); reflexivity.
Qed.

Lemma split_chunks (b : list byte) :
  (length b mod ENCODED_SIZE cls = 0)%nat ->
  exists cs, chunked (ENCODED_SIZE cls) cs /\ concat cs = b /\
             length cs = (length b / ENCODED_SIZE cls)%nat /\
             forall k, (k < length cs)%nat ->
               Py.slice b (k * ENCODED_SIZE cls) (k * ENCODED_SIZE cls + ENCODED_SIZE cls)
               = nth k cs [].
Proof.
  intros Hmod. pose proof ENCODED_SIZE_pos as HL.
  destruct (chunks_exist (ENCODED_SIZE cls) HL (length b / ENCODED_SIZE cls)%nat b)
    as (cs & Hcs & Hcat & Hlen).
  { pose proof (Nat.div_mod_eq (length b) (ENCODED_SIZE cls)). lia. }
  exists cs. repeat split; try assumption.
  intros k Hk. rewrite <- Hcat. apply slice_chunk; assumption.
Qed.

(** C4.  Decoding the encoding of a vector [v] gives [v] back; and a byte
    string [b] whose length is a multiple of [ENCODED_SIZE] and whose chunks
    all hold little-endian integers below [MODULUS] decodes to a vector whose
    encoding is [b]. *)
Theorem vec_codec_roundtrip (v : list (Field cls)) (b : list byte) :
  decode_vec cls (encode_vec cls v) = Some v /\
  ((length b mod ENCODED_SIZE cls = 0)%nat ->
   (forall k, (k < length b / ENCODED_SIZE cls)%nat ->
      from_le_bytes
        (Py.slice b (k * ENCODED_SIZE cls) (k * ENCODED_SIZE cls + ENCODED_SIZE cls))
      < MODULUS cls) ->
   exists vec, decode_vec cls b = Some vec /\ encode_vec cls vec = b).
Proof.
  split.
  - rewrite encode_vec_concat, decode_vec_chunks by apply encoded_chunked.
    rewrite mapM_map. erewrite mapM_total with (g := fun x => x).
    + rewrite map_id. reflexivity.
    + intros x _. apply decode_encode_elem.
  - intros Hmod Hcanon.
    destruct (split_chunks b Hmod) as (cs & Hcs & Hcat & Hlen & Hnth).
    exists (map (fun c => Zmod.of_Z (MODULUS cls) (from_le_bytes c)) cs).
    assert (Hsmall : forall c, In c cs -> from_le_bytes c < MODULUS cls).
    { intros c Hin. apply (In_nth _ _ []) in Hin as (k & Hk & <-).
      rewrite <- Hnth by assumption. apply Hcanon. rewrite <- Hlen. assumption. }
    split.
    + rewrite <- Hcat, decode_vec_chunks by assumption.
      apply mapM_total. intros c Hin. apply decode_chunk_small, Hsmall, Hin.
    + rewrite encode_vec_concat, map_map, <- Hcat. f_equal.
      rewrite <- (map_id cs) at 2. apply map_ext_in. intros c Hin.
      unfold encode_elem, as_unsigned.
      rewrite Zmod.to_Z_of_Z_small
        by (pose proof (from_le_bytes_range c); specialize (Hsmall c Hin); lia).
      unfold chunked in Hcs. rewrite Forall_forall in Hcs.
      rewrite <- (Hcs c Hin). apply to_le_from_le.
Qed.

(** C5.  [decode_vec(b)] raises exactly when the length of [b] is not a
    multiple of [ENCODED_SIZE] or some [ENCODED_SIZE]-byte chunk of [b] holds a
    little-endian integer that is at least [MODULUS]; when it returns, the
    list has [len(b) / ENCODED_SIZE] elements. *)
Theorem decode_vec_errors (b : list byte) :
  (decode_vec cls b = None <->
   (length b mod ENCODED_SIZE cls <> 0)%nat \/
   exists k, (k < length b / ENCODED_SIZE cls)%nat /\
     MODULUS cls <= from_le_bytes
       (Py.slice b (k * ENCODED_SIZE cls) (k * ENCODED_SIZE cls + ENCODED_SIZE cls))) /\
  match decode_vec cls b with
  | Some vec => length vec = (length b / ENCODED_SIZE cls)%nat
  | None => True
  end.
Proof.
  destruct (Nat.eq_dec (length b mod ENCODED_SIZE cls) 0) as [Hmod|Hmod].
  - destruct (split_chunks b Hmod) as (cs & Hcs & Hcat & Hlen & Hnth).
    assert (Hdec : decode_vec cls b = mapM (decode_chunk cls) cs)
      by (rewrite <- Hcat; apply decode_vec_chunks; assumption).
    rewrite Hdec. split.
    + rewrite mapM_None. split.
      * intros (c & Hin & Hc). right.
        apply (In_nth _ _ []) in Hin as (k & Hk & <-).
        exists k. split; [lia|]. rewrite Hnth by assumption.
        apply decode_chunk_None; assumption.
      * intros [Hbad | (k & Hk & Hc)]; [contradiction|].
        exists (nth k cs []). split; [apply nth_In; lia|].
        apply decode_chunk_None. rewrite <- Hnth by lia. assumption.
    + destruct (mapM (decode_chunk cls) cs) as [vec|] eqn:Hm; [|exact I].
      rewrite (mapM_length _ _ _ Hm). assumption.
  - assert (Hdec : decode_vec cls b = None).
    { unfold decode_vec. destruct (Nat.eqb_spec (length b mod ENCODED_SIZE cls) 0);
        [contradiction | reflexivity]. }
    rewrite Hdec. split; [|exact I]. split; [left; assumption | reflexivity].
Qed.

End VectorCodec.

Lemma vec_codec_roundtrip_witness :
  exists vec, Field.decode_vec Field.Field2 [x01; x00]%byte = Some vec /\
              Field.encode_vec Field.Field2 vec = [x01; x00]%byte.
Proof.
  apply (vec_codec_roundtrip Field.Field2 [] [x01; x00]%byte).
  - reflexivity.
  - intros k Hk. simpl in Hk.
    destruct k as [|[|k]]; [vm_compute; reflexivity | vm_compute; reflexivity | lia].
Defined.

(** ** Polynomials *)

Section PolyFacts.
Import Field Poly FieldSpec.
Context (field : FieldClass).

Lemma eq_refl_true (a : Field field) : eq a a = true.
Proof. apply Zmod.eqb_refl. Qed.

Lemma poly_strip_from_zero (p : list (Field field)) (i : nat) :
  Forall (fun c => c = field_0 field) p -> poly_strip_from field p i = [].
Proof.
  intros Hp. induction i as [|j IH]; [reflexivity|]. cbn [poly_strip_from].
  assert (Hnth : nth j p (field_0 field) = field_0 field).
  { destruct (nth_in_or_default j p (field_0 field)) as [Hin|Hd]; [|assumption].
    rewrite Forall_forall in Hp. apply Hp, Hin. }
  rewrite Hnth, eq_refl_true. exact IH.
Qed.

Lemma poly_strip_from_nonempty (p : list (Field field)) (i : nat) :
  (i <= length p)%nat ->
  (exists j, (j < i)%nat /\ nth j p (field_0 field) <> field_0 field) ->
  exists q c, poly_strip_from field p i = q ++ [c] /\ c <> field_0 field.
Proof.
  intros Hi. induction i as [|j IH]; intros (k & Hk & Hnz); [lia|].
  cbn [poly_strip_from].
  unfold eq. destruct (Zmod.eqb_spec (nth j p (field_0 field)) (field_0 field)) as [Hz|Hz];
    cbn [negb].
  - apply IH; [lia|]. exists k. split; [|assumption].
    destruct (Nat.eq_dec k j) as [->|]; [contradiction | lia].
  - exists (firstn j p), (nth j p (field_0 field)). split; [|assumption].
    rewrite <- (firstn_skipn j p) at 1.
    rewrite (firstn_app), length_firstn, Nat.min_l by lia.
    replace (S j - j)%nat with 1%nat by lia.
    rewrite firstn_all2 by (rewrite length_firstn; lia). f_equal.
    destruct (skipn j p) as [|c r] eqn:Hs.
    + apply (f_equal (@length _)) in Hs. rewrite length_skipn in Hs. simpl in Hs. lia.
    + simpl. f_equal. rewrite <- (firstn_skipn j p) at 1.
      rewrite app_nth2, length_firstn, Nat.min_l, Nat.sub_diag, Hs by
        (rewrite ?length_firstn; lia).
      reflexivity.
Qed.

Lemma poly_eval_stripped (q : list (Field field)) (c x : Field field) (p : list (Field field)) :
  p <> [] -> poly_strip field p = q ++ [c] ->
  poly_eval field p x = Some (horner (q ++ [c]) x).
Proof.
  intros Hp Hq. unfold poly_eval. destruct p as [|a p]; [contradiction|].
  cbn [length Nat.eqb]. rewrite Hq. unfold last_item.
  destruct (q ++ [c]) eqn:Hqc; [destruct q; discriminate|]. rewrite <- Hqc.
  rewrite last_last, removelast_last. cbn [Py.bind]. f_equal.
  unfold horner. rewrite fold_right_app. cbn [fold_right].
  replace (add c (mul (field_0 field) x)) with c.
  - clear. induction q as [|a q IH]; [reflexivity|].
    cbn [rev fold_right]. rewrite fold_left_app. cbn [fold_left]. rewrite IH.
    unfold add, of_gf. apply Zmod.add_comm.
  - unfold add, mul, of_gf, field_0. rewrite Zmod.of_Z_0, Zmod.mul_0_l, Zmod.add_0_r.
    reflexivity.
Qed.

(** Away from the all-zero lists, [poly_eval] is Horner's rule on the
    stripped polynomial. *)
Lemma poly_eval_horner (p : list (Field field)) (x : Field field) :
  p = [] \/ Exists (fun c => c <> field_0 field) p ->
  poly_eval field p x = Some (horner (poly_strip field p) x).
Proof.
  intros [->|Hex]; [reflexivity|].
  assert (Hp : p <> []) by (intros ->; inversion Hex).
  destruct (poly_strip_from_nonempty p (length p) (le_n _)) as (q & c & Hq & _).
  { apply Exists_exists in Hex as (c & Hin & Hc).
    apply (In_nth _ _ (field_0 field)) in Hin as (j & Hj & Hnth).
    exists j. split; [assumption | congruence]. }
  change (poly_strip_from field p (length p)) with (poly_strip field p) in Hq.
  rewrite (poly_eval_stripped q c x p Hp Hq), Hq. reflexivity.
Qed.

(** C3 fails on the code: on a non-empty list whose coefficients are all
    zero, [poly_strip] leaves the empty list and [p[-1]] raises [IndexError]
    where the claim has [poly_eval] return the field zero.  (Everywhere else
    [poly_eval] is Horner's rule on the stripped list: [poly_eval_horner].) *)
Theorem poly_eval_all_zero_raises (p : list (Field field)) (x : Field field) :
  p <> [] -> Forall (fun c => c = field_0 field) p ->
  poly_eval field p x = None.
Proof.
  intros Hp Hzero. unfold poly_eval. destruct p as [|c p]; [contradiction|].
  cbn [length Nat.eqb]. unfold poly_strip.
  rewrite poly_strip_from_zero by assumption. reflexivity.
Qed.

End PolyFacts.

Lemma poly_eval_all_zero_raises_witness :
  Poly.poly_eval Field.Field64 [Poly.field_0 Field.Field64] (Zmod.of_Z _ 3) = None.
Proof.
  apply (poly_eval_all_zero_raises Field.Field64).
  - discriminate.
  - repeat constructor.
Defined.

(** ** Identities of arithmetic modulo [m] *)

Section ZmodIdentities.
Context (m : Z).

Add Ring Zmod_ring : (Zmod.ring_theory m).

Lemma id_padd (a b hp hq x : Zmod m) :
  Zmod.add (Zmod.add a b) (Zmod.mul (Zmod.add hp hq) x) =
  Zmod.add (Zmod.add a (Zmod.mul hp x)) (Zmod.add b (Zmod.mul hq x)).
Proof. ring. Qed.

Lemma id_pscale (c a hp x : Zmod m) :
  Zmod.add (Zmod.mul c a) (Zmod.mul (Zmod.mul c hp) x) =
  Zmod.mul c (Zmod.add a (Zmod.mul hp x)).
Proof. ring. Qed.

Lemma id_linear (r hp x : Zmod m) :
  Zmod.add (Zmod.add Zmod.zero (Zmod.mul hp x)) (Zmod.mul (Zmod.opp r) hp) =
  Zmod.mul (Zmod.sub x r) hp.
Proof. ring. Qed.

Lemma id_const (c x : Zmod m) : Zmod.add c (Zmod.mul Zmod.zero x) = c.
Proof. ring. Qed.

Lemma id_root (x acc : Zmod m) : Zmod.mul (Zmod.sub x x) acc = Zmod.zero.
Proof. ring. Qed.

Lemma id_sub_zero (a b : Zmod m) : Zmod.sub a b = Zmod.zero -> a = b.
Proof.
  intros H. assert (Ha : a = Zmod.add (Zmod.sub a b) b) by ring.
  rewrite Ha, H. ring.
Qed.

Lemma id_hit (h y i d : Zmod m) : Zmod.mul i d = Zmod.one ->
  Zmod.add (Zmod.add h (Zmod.mul (Zmod.mul y i) d)) Zmod.zero = Zmod.add h y.
Proof.
  intros H. assert (Hy : Zmod.mul (Zmod.mul y i) d = Zmod.mul y (Zmod.mul i d)) by ring.
  rewrite Hy, H. ring.
Qed.

Lemma id_miss (h c t : Zmod m) :
  Zmod.add (Zmod.add h (Zmod.mul c Zmod.zero)) t = Zmod.add h t.
Proof. ring. Qed.

End ZmodIdentities.

(** ** The model of Sage's [lagrange_polynomial] interpolates *)

Section LagrangeFacts.
Import Field Sage.
Context (cls : FieldClass).

Lemma horner_cons (c : gf cls) (p : list (gf cls)) (x : gf cls) :
  horner (c :: p) x = Zmod.add c (Zmod.mul (horner p x) x).
Proof. reflexivity. Qed.

Lemma horner_nil (x : gf cls) : @horner cls [] x = Zmod.zero.
Proof. reflexivity. Qed.

Lemma horner_padd (p : list (gf cls)) : forall q x,
  horner (padd p q) x = Zmod.add (horner p x) (horner q x).
Proof.
  induction p as [|a p IH]; intros q x.
  - cbn [padd]. rewrite horner_nil. symmetry. apply Zmod.add_0_l.
  - destruct q as [|b q]; cbn [padd].
    + rewrite horner_nil. symmetry. apply Zmod.add_0_r.
    + rewrite !horner_cons, IH. apply id_padd.
Qed.

Lemma horner_pscale (c : gf cls) (p : list (gf cls)) (x : gf cls) :
  horner (pscale c p) x = Zmod.mul c (horner p x).
Proof.
  induction p as [|a p IH]; cbn [pscale map].
  - rewrite horner_nil. symmetry. apply Zmod.mul_0_r.
  - fold (pscale c p). rewrite !horner_cons, IH. apply id_pscale.
Qed.

Lemma horner_pmul_linear (r : gf cls) (p : list (gf cls)) (x : gf cls) :
  horner (pmul_linear r p) x = Zmod.mul (Zmod.sub x r) (horner p x).
Proof.
  unfold pmul_linear. rewrite horner_padd, horner_pscale, horner_cons. apply id_linear.
Qed.

Lemma horner_basis (l : list (gf cls)) (x : gf cls) :
  horner (fold_right pmul_linear [Zmod.one] l) x = prod_diff x l.
Proof.
  induction l as [|xj l IH]; cbn [fold_right prod_diff].
  - rewrite horner_cons, horner_nil. apply id_const.
  - rewrite horner_pmul_linear, IH. reflexivity.
Qed.

Lemma prod_diff_root (x : gf cls) (l : list (gf cls)) : In x l -> prod_diff x l = Zmod.zero.
Proof.
  induction l as [|xj l IH]; intros Hin; [contradiction|].
  cbn [prod_diff fold_right]. destruct Hin as [->|Hin].
  - apply id_root.
  - fold (prod_diff x l). rewrite IH by assumption. apply Zmod.mul_0_r.
Qed.

Lemma prod_diff_nonzero (x : gf cls) (l : list (gf cls)) :
  ~ In x l -> prod_diff x l <> Zmod.zero.
Proof.
  induction l as [|xj l IH]; intros Hnin.
  - cbn. apply Zmod.one_neq_zero. pose proof (MODULUS_ge_2 cls). lia.
  - cbn [prod_diff fold_right]. fold (prod_diff x l). intros H0.
    apply (Zmod.mul_0_iff_prime (MODULUS_prime cls)) in H0 as [H0|H0].
    + apply Hnin. left. symmetry. apply id_sub_zero. exact H0.
    + apply IH; [|assumption]. intros Hin. apply Hnin. right. assumption.
Qed.

Lemma normalize_horner (p : list (gf cls)) (x : gf cls) :
  horner (normalize p) x = horner p x.
Proof.
  induction p as [|c p IH]; [reflexivity|]. cbn [normalize].
  destruct (normalize p) as [|c' p'] eqn:Hn.
  - rewrite horner_cons, <- IH, horner_nil.
    destruct (Zmod.eqb_spec c Zmod.zero) as [->|_].
    + rewrite horner_nil. symmetry. apply id_const.
    + rewrite horner_cons, horner_nil. reflexivity.
  - rewrite !horner_cons, <- IH. reflexivity.
Qed.

Lemma others_split (xs : list (gf cls)) (i : nat) (d : gf cls) :
  (i < length xs)%nat -> xs = firstn i xs ++ nth i xs d :: skipn (S i) xs.
Proof.
  revert i. induction xs as [|a xs IH]; intros i Hi; simpl in Hi; [lia|].
  destruct i as [|i]; [reflexivity|]. cbn [firstn nth skipn app]. f_equal.
  apply IH. lia.
Qed.

Lemma others_own (xs : list (gf cls)) (i : nat) (d : gf cls) :
  NoDup xs -> (i < length xs)%nat -> ~ In (nth i xs d) (others xs i).
Proof.
  intros Hnd Hi. rewrite (others_split xs i d Hi) in Hnd.
  apply NoDup_remove_2 in Hnd. exact Hnd.
Qed.

Lemma others_other (xs : list (gf cls)) (i k : nat) (d : gf cls) :
  NoDup xs -> (i < length xs)%nat -> (k < length xs)%nat -> k <> i ->
  In (nth k xs d) (others xs i).
Proof.
  intros Hnd Hi Hk Hne.
  assert (Hin : In (nth k xs d) xs) by (apply nth_In; assumption).
  remember (nth k xs d) as a eqn:Ha.
  rewrite (others_split xs i d Hi) in Hin.
  apply in_elt_inv in Hin as [Heq|Hin]; [|exact Hin].
  exfalso. apply Hne. symmetry.
  apply (proj1 (NoDup_nth xs d) Hnd); [assumption | assumption | congruence].
Qed.

Lemma lagrange_loop (xs : list (gf cls)) (points : list (gf cls * gf cls)) :
  NoDup xs -> xs = map fst points ->
  forall (suf : list (gf cls * gf cls)) (s : nat) (acc : list (gf cls)),
  skipn s points = suf ->
  exists acc',
    Py.for_each (combine (seq s (length suf)) suf)
      (fun acc '(i, (xi, yi)) =>
         let d := basis_den xs xi i in
         if Zmod.eqb d Zmod.zero then None
         else Some (padd acc (pscale (Zmod.mul yi (Zmod.inv d)) (basis_num xs i))))
      acc = Some acc' /\
    forall k, (k < length points)%nat ->
      horner acc' (nth k xs Zmod.zero) =
      Zmod.add (horner acc (nth k xs Zmod.zero))
        (if (s <=? k)%nat then snd (nth k points (Zmod.zero, Zmod.zero)) else Zmod.zero).
Proof.
  intros Hnd Hxs suf. induction suf as [|[xi yi] suf IH]; intros s acc Hsuf.
  - exists acc. split; [reflexivity|]. intros k Hk.
    assert (length points <= s)%nat.
    { apply (f_equal (@length _)) in Hsuf. rewrite length_skipn in Hsuf. simpl in Hsuf. lia. }
    destruct (Nat.leb_spec s k); [lia|]. symmetry. apply Zmod.add_0_r.
  - assert (Hs : (s < length points)%nat).
    { apply (f_equal (@length _)) in Hsuf. rewrite length_skipn in Hsuf. simpl in Hsuf. lia. }
    assert (Hnth : nth s points (Zmod.zero, Zmod.zero) = (xi, yi)).
    { rewrite <- (firstn_skipn s points) at 1. rewrite Hsuf.
      rewrite app_nth2, length_firstn, Nat.min_l, Nat.sub_diag by
        (rewrite ?length_firstn; lia). reflexivity. }
    assert (Hsuf' : skipn (S s) points = suf).
    { rewrite <- (Nat.add_1_l s), <- skipn_skipn, Hsuf. reflexivity. }
    assert (Hlen : length xs = length points) by (rewrite Hxs; apply length_map).
    assert (Hxi : nth s xs Zmod.zero = xi).
    { rewrite Hxs.
      change (@Zmod.zero (MODULUS cls)) with (fst (@Zmod.zero (MODULUS cls), @Zmod.zero (MODULUS cls))).
      rewrite map_nth, Hnth. reflexivity. }
    cbn [length seq combine]. rewrite for_each_cons. cbn zeta.
    assert (Hden : basis_den xs xi s <> Zmod.zero).
    { change (basis_den xs xi s) with (prod_diff xi (others xs s)).
      apply prod_diff_nonzero. rewrite <- Hxi. apply others_own; [assumption | lia]. }
    destruct (Zmod.eqb_spec (basis_den xs xi s) Zmod.zero) as [|_]; [contradiction|].
    cbn [Py.bind].
    destruct (IH (S s)
      (padd acc (pscale (Zmod.mul yi (Zmod.inv (basis_den xs xi s))) (basis_num xs s)))
      Hsuf') as (acc' & Hrun & Hval).
    exists acc'. split; [exact Hrun|]. intros k Hk. rewrite (Hval k Hk).
    rewrite horner_padd, horner_pscale. unfold basis_num. rewrite horner_basis.
    destruct (Nat.eq_dec k s) as [->|Hne].
    + rewrite Hxi, Hnth. cbn [snd].
      destruct (Nat.leb_spec (S s) s); [lia|]. destruct (Nat.leb_spec s s); [|lia].
      change (prod_diff xi (others xs s)) with (basis_den xs xi s).
      apply id_hit. apply Zmod.mul_inv_same_l_prime; [apply MODULUS_prime | exact Hden].
    + rewrite (prod_diff_root _ _ (others_other xs s k Zmod.zero Hnd ltac:(lia) ltac:(lia) Hne)).
      destruct (Nat.leb_spec (S s) k), (Nat.leb_spec s k); try lia; apply id_miss.
Qed.

(** Through points of pairwise distinct abscissas, [lagrange_polynomial]
    returns a polynomial that takes the prescribed values. *)
Theorem lagrange_polynomial_interpolates (xs ys : list (gf cls)) :
  NoDup xs -> length xs = length ys ->
  exists p, lagrange_polynomial (combine xs ys) = Some p /\
    forall k, (k < length xs)%nat ->
      horner p (nth k xs Zmod.zero) = nth k ys Zmod.zero.
Proof.
  intros Hnd Hlen. unfold lagrange_polynomial, Py.enumerate.
  assert (Hxs : xs = map fst (combine xs ys)).
  { clear Hnd. revert ys Hlen. induction xs as [|x xs IH]; intros [|y ys] Hl;
      try discriminate; [reflexivity|]. simpl. f_equal. apply IH. simpl in Hl. lia. }
  destruct (lagrange_loop xs (combine xs ys) Hnd Hxs (combine xs ys) 0 [] eq_refl)
    as (acc & Hrun & Hval).
  exists (normalize acc). split.
  - cbv zeta. rewrite <- Hxs. exact (f_equal (option_map normalize) Hrun).
  - intros k Hk. rewrite normalize_horner, Hval by (rewrite length_combine; lia).
    rewrite horner_nil. cbn [Nat.leb].
    rewrite combine_nth by assumption. cbn [snd]. apply Zmod.add_0_l.
Qed.

End LagrangeFacts.

Section DenseInterpolation.
Import Field Sage Poly.
Context (field : FieldClass).

Lemma coefficients_dense (p : list (gf field)) :
  Forall (fun c => c <> Zmod.zero) p -> coefficients p = p.
Proof.
  induction 1 as [|c p Hc _ IH]; [reflexivity|]. cbn [coefficients filter].
  destruct (Zmod.eqb_spec c Zmod.zero) as [|_]; [contradiction|]. cbn [negb].
  f_equal. exact IH.
Qed.

Lemma poly_strip_dense (p : list (Field field)) :
  Forall (fun c => c <> field_0 field) p -> poly_strip field p = p.
Proof.
  intros Hp. induction p as [|c q _] using rev_ind; [reflexivity|].
  unfold poly_strip. rewrite length_app, Nat.add_1_r. cbn [poly_strip_from].
  rewrite app_nth2, Nat.sub_diag by lia. cbn [nth].
  apply Forall_app in Hp as [_ Hc]. inversion Hc as [|? ? Hc' _]; subst.
  unfold eq. destruct (Zmod.eqb_spec c (field_0 field)) as [|_]; [contradiction|].
  cbn [negb].
  replace (S (length q)) with (length (q ++ [c])) by (rewrite length_app; simpl; lia).
  apply firstn_all.
Qed.

(** When no coefficient of the Lagrange polynomial is zero, [poly_interp]
    returns it, and [poly_eval] finds the prescribed values. *)
Lemma poly_interp_dense (xs ys p : list (Field field)) :
  NoDup xs -> length xs = length ys ->
  lagrange_polynomial (combine xs ys) = Some p ->
  Forall (fun c => c <> field_0 field) p ->
  poly_interp field xs ys = Some p /\
  forall k, (k < length xs)%nat ->
    poly_eval field p (nth k xs (field_0 field)) = Some (nth k ys (field_0 field)).
Proof.
  intros Hnd Hlen Hp Hdense.
  destruct (lagrange_polynomial_interpolates field xs ys Hnd Hlen) as (p' & Hp' & Hval).
  pose proof (eq_trans (eq_sym Hp') Hp) as E. injection E as ->. split.
  - unfold poly_interp. rewrite Hp. cbn [Py.bind]. f_equal.
    rewrite coefficients_dense by exact Hdense.
    rewrite map_id. apply poly_strip_dense, Hdense.
  - intros k Hk. rewrite poly_eval_horner.
    + rewrite poly_strip_dense by exact Hdense. f_equal. apply Hval, Hk.
    + destruct p as [|c p]; [left; reflexivity | right].
      apply Exists_cons_hd. inversion Hdense; assumption.
Qed.

End DenseInterpolation.

(** C2 fails on the code: through the points [(0, 0)] and [(1, 1)] of
    [Field64] the Lagrange polynomial is [x], with coefficients [[0, 1]];
    [p.coefficients()] keeps the non-zero one only, [poly_interp] returns the
    constant polynomial [[1]], and its value at [xs[0] = 0] is [1], not
    [ys[0] = 0]. *)
Theorem poly_interp_misses_points :
  let f := Zmod.of_Z (Field.MODULUS Field.Field64) in
  let xs := [f 0; f 1] in
  let ys := [f 0; f 1] in
  NoDup xs /\
  Sage.lagrange_polynomial (combine xs ys) = Some [f 0; f 1] /\
  Poly.poly_interp Field.Field64 xs ys = Some [f 1] /\
  Poly.poly_eval Field.Field64 [f 1] (nth 0 xs (f 0)) = Some (f 1) /\
  nth 0 ys (f 0) = f 0 /\ f 1 <> f 0.
Proof.
  cbv zeta.
  assert (Hne : Zmod.of_Z (Field.MODULUS Field.Field64) 1 <> Zmod.of_Z _ 0).
  { intros H. apply (f_equal Zmod.to_Z) in H. vm_compute in H. discriminate. }
  split; [|split; [|split; [|split; [|split]]]].
  - constructor; [|constructor; [|constructor]]; simpl; intuition auto.
  - vm_compute. reflexivity.
  - vm_compute. reflexivity.
  - vm_compute. reflexivity.
  - reflexivity.
  - exact Hne.
Qed.
